(** * The macro-definition registry of vscode_conan_init

    A shallow embedding of [vscode_conan_init/__init__.py]: the class
    [_MacroDefinitions] (its static method [_get_name] and its methods
    [add], [remove], [as_list]) and the statements of [main] that build
    the list of preprocessor defines from the conan dependencies and the
    command line.

    Python strings are modelled as [string] (the UTF-8 bytes of the text):
    the byte [=] never occurs inside a multi-byte sequence and byte-wise
    lexicographic order on UTF-8 agrees with code point order, so [find],
    slicing and comparison are the same on both views.  The dictionary
    [self._dict] is a [gmap string string]; Python raises [KeyError] on
    [del d[k]] for a missing key, which is written out in [dict_del]. *)

From Stdlib Require Import ZArith Ascii String.
From stdpp Require Import gmap strings list fin_maps sorting.

(** ** Python string primitives *)

Module PyStr.

(** [s.find(sub)] scanning from offset [i]: the lowest index at which
    [sub] occurs, [-1] when it does not occur. *)
Fixpoint find_from (sub s : string) (i : Z) : Z :=
  if String.prefix sub s then i
  else match s with
       | EmptyString => (-1)%Z
       | String _ s' => find_from sub s' (i + 1)%Z
       end.

Definition find (s sub : string) : Z := find_from sub s 0%Z.

(** [s[:stop]]: a negative [stop] counts from the end, and the bound is
    clamped to the length of [s]. *)
Definition slice_to (s : string) (stop : Z) : string :=
  let len := Z.of_nat (String.length s) in
  let stop' := if (stop <? 0)%Z then Z.max 0 (len + stop) else Z.min stop len in
  String.substring 0 (Z.to_nat stop') s.

(** [l.sort()] on a list of [str].  The order [String.le] is [a <= b] on
    [str]: lexicographic on the characters, a proper prefix being smaller.
    The sorted list of a list of strings is unique (equal strings are
    indistinguishable), so any sorting algorithm gives the list Python's
    does. *)
Definition sort (l : list string) : list string := merge_sort String.le l.

Definition dquote : string := String (ascii_of_nat 34) EmptyString.

(** [c in s] for a single character [c]. *)
Fixpoint contains (c : ascii) (s : string) : bool :=
  match s with
  | EmptyString => false
  | String c' s' => if Ascii.eqb c c' then true else contains c s'
  end.

(** [s] occurs in [t] as a contiguous piece. *)
Definition occurs_in (s t : string) : Prop :=
  ∃ pre post : string, t = (pre ++ s ++ post)%string.

End PyStr.

(** ** Exceptions and the state-and-exception monad of the methods *)

Inductive exn : Type :=
  | KeyError (key : string)
  | RuntimeError (msg : string).

Inductive result (A : Type) : Type :=
  | Ok (a : A)
  | Raise (e : exn).
Arguments Ok {A} a.
Arguments Raise {A} e.

(** class [_MacroDefinitions]: the one attribute [_dict], from the name of
    a macro to its full definition. *)
Record MacroDefinitions : Type := { _dict : gmap string string }.

(** [_MacroDefinitions()] *)
Definition __init__ : MacroDefinitions := {| _dict := ∅ |}.

(** A method body: it runs on [self], and either returns a value and the
    updated [self] or raises. *)
Definition M (A : Type) : Type := MacroDefinitions → result (A * MacroDefinitions).

Definition ret {A} (a : A) : M A := λ self, Ok (a, self).

Definition bind {A B} (m : M A) (k : A → M B) : M B :=
  λ self, match m self with
          | Ok (a, self') => k a self'
          | Raise e => Raise e
          end.

Definition raise {A} (e : exn) : M A := λ _, Raise e.

#[global] Instance M_ret : MRet M := @ret.
#[global] Instance M_bind : MBind M := λ A B k m, bind m k.

(** [for x in l: body(x)] *)
Fixpoint for_each {A} (l : list A) (body : A → M unit) : M unit :=
  match l with
  | [] => ret tt
  | x :: l' => body x;; for_each l' body
  end.

(** *** Dictionary operations on [self._dict] *)

(** [self._dict.get(key)] *)
Definition dict_get (key : string) : M (option string) :=
  λ self, Ok (_dict self !! key, self).

(** [self._dict[key] = value] *)
Definition dict_set (key value : string) : M unit :=
  λ self, Ok (tt, {| _dict := <[key := value]> (_dict self) |}).

(** [del self._dict[key]] *)
Definition dict_del (key : string) : M unit :=
  λ self, match _dict self !! key with
          | Some _ => Ok (tt, {| _dict := delete key (_dict self) |})
          | None => Raise (KeyError key)
          end.

(** [list(self._dict.values())]: a fresh list, so that sorting it in place
    leaves the dictionary alone.  The order of the values is that of the
    map's enumeration; [as_list] sorts it away. *)
Definition dict_values : M (list string) :=
  λ self, Ok ((map_to_list (_dict self)).*2, self).

(** ** The class [_MacroDefinitions] *)

Definition _get_name (definition : string) : string :=
  let equal_index := PyStr.find definition "=" in
  if (equal_index =? -1)%Z then definition
  else PyStr.slice_to definition equal_index.

Definition add (definition : string) : M (option string) :=
  let name := _get_name definition in
  old_value ← dict_get name;
  dict_set name definition;;
  ret old_value.

Definition remove (name : string) : M (option string) :=
  old_value ← dict_get name;
  (match old_value with
   | Some _ => dict_del name
   | None => ret tt
   end);;
  ret old_value.

Definition as_list : M (list string) :=
  defines ← dict_values;
  let defines := PyStr.sort defines in
  ret defines.

(** ** The defines computed by [main] *)

(** One entry of [info_data["dependencies"]]. *)
Record dep_info : Type := {
  include_paths : list string;
  defines : list string
}.

(** The command line options read by this part of [main]. *)
Record args : Type := {
  define : list string;
  undefine : list string
}.

Definition conflict_message (old_value define : string) : string :=
  "Multiple defines from conan dependencies for the same macro: "
    +:+ PyStr.dquote +:+ old_value +:+ PyStr.dquote
    +:+ " and " +:+ PyStr.dquote +:+ define +:+ PyStr.dquote.

(** The body of the inner loop over [dep_info["defines"]]. *)
Definition merge_define (define : string) : M unit :=
  old_value ← add define;
  match old_value with
  | Some old =>
      if bool_decide (old ≠ define)
      then raise (RuntimeError (conflict_message old define))
      else ret tt
  | None => ret tt
  end.

(** The loop over [info_data["dependencies"]], on [macro_defs].  The loop
    also extends the list [includes], which no later statement on
    [macro_defs] reads; it is left out. *)
Definition merge_dependencies (info_data : list dep_info) : M unit :=
  for_each info_data (λ dep_info,
    for_each (defines dep_info) merge_define).

(** The loops over [args.define] and [args.undefine]. *)
Definition apply_user (a : args) : M unit :=
  for_each (define a) (λ define, add define;; ret tt);;
  for_each (undefine a) (λ undefine, remove undefine;; ret tt).

(** The value [main] stores under ["defines"], or the exception that ends
    the run: [macro_defs] starts empty, takes the dependencies, then the
    user's options, and is read with [as_list]. *)
Definition main_defines (info_data : list dep_info) (a : args) : result (list string) :=
  match (merge_dependencies info_data;; apply_user a;; as_list) __init__ with
  | Ok (l, _) => Ok l
  | Raise e => Raise e
  end.

(** ** The include paths of [main] and the search for clang-format *)

Section Environment.

(** [os.path.abspath] *)
Variable abspath : string → string.

(** [shutil.which(cmd, path=path)]: the executable the file system holds
    for [cmd] on the search path [path], [None] when there is none. *)
Variable which : string → string → option string.

(** The loop over [info_data["dependencies"]] as [main] has it, on both
    [includes] and [macro_defs]: each dependency first extends [includes]
    and then has its defines merged. *)
Fixpoint dependencies_loop (info_data : list dep_info)
    (includes : list string) : M (list string) :=
  match info_data with
  | [] => mret includes
  | dep_info :: info_data' =>
      let includes := includes ++ include_paths dep_info in
      for_each (defines dep_info) merge_define;;
      dependencies_loop info_data' includes
  end.

(** The values [main] stores under ["includePath"] and ["defines"], from
    [args.include], the dependencies and the other options. *)
Definition main_includes_defines (include : list string)
    (info_data : list dep_info) (a : args)
    : result (list string * list string) :=
  let includes := abspath <$> include in
  match (includes ← dependencies_loop info_data includes;
         apply_user a;;
         defines ← as_list;
         mret (includes, defines)) __init__ with
  | Ok (r, _) => Ok r
  | Raise e => Raise e
  end.

(** One entry of [info_data["dependencies"]] as [_install_clang_format]
    reads it. *)
Record bin_info : Type := { bin_paths : list string }.

(** The loop over [dep["bin_paths"]]: [Some] is the [return] taken. *)
Fixpoint search_bin_paths (paths : list string) : option string :=
  match paths with
  | [] => None
  | path :: paths' =>
      match which "clang-format" path with
      | Some clang_format => Some clang_format
      | None => search_bin_paths paths'
      end
  end.

(** The loop over [info_data["dependencies"]]. *)
Fixpoint search_dependencies (info_data : list bin_info) : option string :=
  match info_data with
  | [] => None
  | dep :: info_data' =>
      match search_bin_paths (bin_paths dep) with
      | Some clang_format => Some clang_format
      | None => search_dependencies info_data'
      end
  end.

(** [_install_clang_format], from the point where [info_data] has been
    loaded from the file conan wrote. *)
Definition _install_clang_format (info_data : list bin_info) : result string :=
  match search_dependencies info_data with
  | Some clang_format => Ok clang_format
  | None => Raise (RuntimeError "Did not find clang-format after installing it.")
  end.

End Environment.

(** ** Notions used to state the properties *)

(** The class invariant: every stored definition is stored under its own
    name. *)
Definition wf (self : MacroDefinitions) : Prop :=
  map_Forall (λ name definition, _get_name definition = name) (_dict self).

(** The calls a client can make on a registry. *)
Inductive op : Type :=
  | OpAdd (definition : string)
  | OpRemove (name : string)
  | OpAsList.

Definition run_op (o : op) : M unit :=
  match o with
  | OpAdd definition => add definition;; ret tt
  | OpRemove name => remove name;; ret tt
  | OpAsList => as_list;; ret tt
  end.

(** The registry after [add] on each definition of [l], in order. *)
Definition add_all (l : list string) : M unit :=
  for_each l (λ definition, add definition;; ret tt).

(** The defines of a list agree: two of them with one name are the same
    definition. *)
Definition consistent (ds : list string) : Prop :=
  ∀ d1 d2, d1 ∈ ds → d2 ∈ ds → _get_name d1 = _get_name d2 → d1 = d2.

(** The registry holds exactly the definitions of [ds], each under its
    name. *)
Definition stores (ds : list string) (self : MacroDefinitions) : Prop :=
  ∀ name d, _dict self !! name = Some d ↔ d ∈ ds ∧ _get_name d = name.

(** The last definition of [l] that has the name [name]. *)
Definition last_definition (name : string) (l : list string) : option string :=
  last (filter (λ d, _get_name d = name) l).

(** * Properties *)

(** ** Strings *)

Section StringFacts.

Local Open Scope Z_scope.

Lemma append_nil_l (s : string) : "" +:+ s = s.
Proof. reflexivity. Qed.

Lemma append_cons (c : ascii) (a b : string) :
  String c a +:+ b = String c (a +:+ b).
Proof. reflexivity. Qed.

Lemma prefix_eq_char (c c' : ascii) (s : string) :
  String.prefix (String c EmptyString) (String c' s) = Ascii.eqb c c'.
Proof.
  simpl. destruct (ascii_dec c c') as [->|Hne].
  - destruct s; by rewrite Ascii.eqb_refl.
  - symmetry. by apply Ascii.eqb_neq.
Qed.

(** Without the character, [find] answers [-1] whatever the offset. *)
Lemma find_from_absent (c : ascii) (s : string) (i : Z) :
  PyStr.contains c s = false →
  PyStr.find_from (String c EmptyString) s i = -1.
Proof.
  revert i. induction s as [|c' s IH]; intros i Hc; [done|].
  cbn [PyStr.find_from]. rewrite prefix_eq_char.
  cbn [PyStr.contains] in Hc.
  destruct (Ascii.eqb c c'); [done|]. by apply IH.
Qed.

(** The first occurrence is found behind a prefix free of the character. *)
Lemma find_from_first (c : ascii) (n v : string) (i : Z) :
  PyStr.contains c n = false →
  PyStr.find_from (String c EmptyString) (n +:+ String c v) i
  = i + Z.of_nat (String.length n).
Proof.
  revert i. induction n as [|c' n IH]; intros i Hc.
  - rewrite append_nil_l. cbn [PyStr.find_from].
    rewrite prefix_eq_char, Ascii.eqb_refl. simpl. lia.
  - rewrite append_cons. cbn [PyStr.find_from]. rewrite prefix_eq_char.
    cbn [PyStr.contains] in Hc.
    destruct (Ascii.eqb c c'); [done|].
    rewrite IH by done. cbn [String.length]. lia.
Qed.

Lemma substring_prefix (n rest : string) :
  String.substring 0 (String.length n) (n +:+ rest) = n.
Proof.
  induction n as [|c n IH].
  - rewrite append_nil_l. by destruct rest.
  - rewrite append_cons. simpl. by rewrite IH.
Qed.

Lemma length_append (a b : string) :
  String.length (a +:+ b) = (String.length a + String.length b)%nat.
Proof.
  induction a as [|c a IH]; [done|].
  rewrite append_cons. simpl. by rewrite IH.
Qed.

(** [(n + rest)[:len(n)]] is [n]. *)
Lemma slice_to_prefix (n rest : string) :
  PyStr.slice_to (n +:+ rest) (Z.of_nat (String.length n)) = n.
Proof.
  unfold PyStr.slice_to.
  destruct (Z.ltb_spec (Z.of_nat (String.length n)) 0) as [?|_]; [lia|].
  rewrite length_append, Z.min_l by lia.
  rewrite Nat2Z.id. apply substring_prefix.
Qed.

(** A string with the character splits at its first occurrence. *)
Lemma contains_split (c : ascii) (s : string) :
  PyStr.contains c s = true →
  ∃ n v, s = n +:+ String c v ∧ PyStr.contains c n = false.
Proof.
  induction s as [|c' s IH]; [done|].
  cbn [PyStr.contains]. destruct (Ascii.eqb_spec c c') as [<-|Hne]; intros Hc.
  - by exists EmptyString, s.
  - destruct (IH Hc) as (n & v & -> & Hn).
    exists (String c' n), v. split; [done|].
    cbn [PyStr.contains]. by destruct (Ascii.eqb_spec c c').
Qed.

Lemma contains_append (c : ascii) (a b : string) :
  PyStr.contains c (a +:+ b) = PyStr.contains c a || PyStr.contains c b.
Proof.
  induction a as [|c' a IH]; [done|].
  rewrite append_cons. cbn [PyStr.contains]. by destruct (Ascii.eqb c c').
Qed.

End StringFacts.

(** ** [_get_name] *)

Lemma get_name_no_equal (definition : string) :
  PyStr.contains "=" definition = false → _get_name definition = definition.
Proof.
  intros Hc. unfold _get_name, PyStr.find.
  by rewrite find_from_absent.
Qed.

Lemma get_name_first_equal (n v : string) :
  PyStr.contains "=" n = false → _get_name (n +:+ "=" +:+ v) = n.
Proof.
  intros Hc. unfold _get_name, PyStr.find.
  change ("=" +:+ v) with (String "=" v).
  rewrite find_from_first by done.
  rewrite Z.add_0_l.
  destruct (Z.eqb_spec (Z.of_nat (String.length n)) (-1)) as [?|_]; [lia|].
  apply slice_to_prefix.
Qed.

(** A name never contains [=]. *)
Lemma get_name_equal_free (definition : string) :
  PyStr.contains "=" (_get_name definition) = false.
Proof.
  destruct (PyStr.contains "=" definition) eqn:Hc.
  - destruct (contains_split _ _ Hc) as (n & v & -> & Hn).
    change (String "=" v) with ("=" +:+ v).
    by rewrite get_name_first_equal.
  - by rewrite get_name_no_equal.
Qed.

(** C4: [_get_name] is a total function of its argument alone; on a
    definition without [=] it is the identity, on a definition with [=] it
    is the part before the first [=], also when the value holds a further
    [=]; the name of the empty definition is empty. *)
Theorem get_name_spec (definition n v : string) :
  (PyStr.contains "=" definition = false → _get_name definition = definition)
  ∧ (PyStr.contains "=" definition = true →
     ∃ n' v', definition = n' +:+ "=" +:+ v'
              ∧ PyStr.contains "=" n' = false
              ∧ _get_name definition = n')
  ∧ (PyStr.contains "=" n = false → _get_name (n +:+ "=" +:+ v) = n)
  ∧ _get_name "" = "".
Proof.
  split; [apply get_name_no_equal|].
  split; [|split; [apply get_name_first_equal | reflexivity]].
  intros Hc. destruct (contains_split _ _ Hc) as (n' & v' & -> & Hn).
  exists n', v'. split; [done|]. split; [done|].
  by apply (get_name_first_equal n' v').
Qed.

Lemma get_name_spec_witness :
  _get_name "foo" = "foo"
  ∧ (∃ n' v', "foo=bar=baz" = n' +:+ "=" +:+ v'
              ∧ PyStr.contains "=" n' = false
              ∧ _get_name "foo=bar=baz" = n')
  ∧ _get_name ("N" +:+ "=" +:+ "V=W") = "N".
Proof.
  destruct (get_name_spec "foo" "N" "V=W") as (H1 & _ & H3 & _).
  destruct (get_name_spec "foo=bar=baz" "" "") as (_ & H2 & _).
  split; [apply H1; reflexivity|].
  split; [apply H2; reflexivity | apply H3; reflexivity].
Defined.

(** ** Running the methods *)

Lemma bind_run {A B} (m : M A) (k : A → M B) (self : MacroDefinitions) :
  (m ≫= k) self = match m self with
                  | Ok (a, self') => k a self'
                  | Raise e => Raise e
                  end.
Proof. reflexivity. Qed.

Lemma add_run (definition : string) (self : MacroDefinitions) :
  add definition self
  = Ok (_dict self !! _get_name definition,
        {| _dict := <[_get_name definition := definition]> (_dict self) |}).
Proof. reflexivity. Qed.

Lemma remove_run (name : string) (self : MacroDefinitions) :
  remove name self
  = Ok (_dict self !! name, {| _dict := delete name (_dict self) |}).
Proof.
  unfold remove. rewrite bind_run. cbn [dict_get].
  destruct (_dict self !! name) as [old|] eqn:Hget.
  - rewrite bind_run. unfold dict_del. by rewrite Hget.
  - rewrite delete_id by done. by destruct self.
Qed.

Lemma as_list_run (self : MacroDefinitions) :
  as_list self = Ok (PyStr.sort (map_to_list (_dict self)).*2, self).
Proof. reflexivity. Qed.

Lemma for_each_nil {A} (body : A → M unit) (self : MacroDefinitions) :
  for_each [] body self = Ok (tt, self).
Proof. reflexivity. Qed.

Lemma for_each_cons {A} (x : A) (l : list A) (body : A → M unit)
    (self : MacroDefinitions) :
  for_each (x :: l) body self
  = match body x self with
    | Ok (_, self') => for_each l body self'
    | Raise e => Raise e
    end.
Proof. reflexivity. Qed.

Lemma for_each_app {A} (l1 l2 : list A) (body : A → M unit)
    (self : MacroDefinitions) :
  for_each (l1 ++ l2) body self
  = match for_each l1 body self with
    | Ok (_, self') => for_each l2 body self'
    | Raise e => Raise e
    end.
Proof.
  revert self. induction l1 as [|x l1 IH]; intros self; [done|].
  rewrite <- app_comm_cons, !for_each_cons.
  destruct (body x self) as [[[] self']|e]; [apply IH | done].
Qed.

(** ** Sorting *)

(** The order of the sort, spelled out: the empty string is least, and two
    strings that start with a character are ordered by the codes of these
    characters and, when these agree, by what follows. *)
Lemma le_lexicographic (s t : string) :
  String.le s t
  ↔ match s, t with
    | EmptyString, _ => True
    | String _ _, EmptyString => False
    | String a s', String b t' =>
        (N_of_ascii a < N_of_ascii b)%N ∨ (a = b ∧ String.le s' t')
    end.
Proof.
  destruct s as [|a s'], t as [|b t']; unfold String.le, String.leb; cbn; try done.
  destruct (Ascii.compare a b) eqn:Hab; cbn.
  - apply Ascii.compare_eq_iff in Hab as ->. split; [by right|].
    intros [Hlt|[_ ?]]; [lia | done].
  - apply N.compare_lt_iff in Hab. split; [by left | done].
  - apply N.compare_gt_iff in Hab. split; [done|].
    intros [Hlt|[-> _]]; lia.
Qed.

Lemma sort_Sorted (l : list string) : Sorted String.le (PyStr.sort l).
Proof. apply (Sorted_merge_sort String.le). Qed.

Lemma sort_StronglySorted (l : list string) :
  StronglySorted String.le (PyStr.sort l).
Proof. apply (StronglySorted_merge_sort String.le). Qed.

Lemma sort_Permutation (l : list string) : PyStr.sort l ≡ₚ l.
Proof. apply (merge_sort_Permutation String.le). Qed.

(** The order in which the values come out of the dictionary does not
    show in the sorted list. *)
Lemma sort_order_irrelevant (l1 l2 : list string) :
  l1 ≡ₚ l2 → PyStr.sort l1 = PyStr.sort l2.
Proof.
  intros Hp. apply (Sorted_unique String.le); [apply sort_Sorted..|].
  by rewrite !sort_Permutation.
Qed.

Lemma elem_of_values (m : gmap string string) (d : string) :
  d ∈ (map_to_list m).*2 ↔ ∃ name, m !! name = Some d.
Proof.
  rewrite list_elem_of_fmap. split.
  - intros ([name d'] & -> & Hin). exists name. by apply elem_of_map_to_list.
  - intros (name & Hget). exists (name, d). split; [done|].
    by apply elem_of_map_to_list.
Qed.

(** ** [add] *)

(** C2: [add] never raises; it returns what was stored under the name of
    the definition ([None] when nothing was), and afterwards the name is
    bound to the new definition whatever was there before, the other names
    being untouched.  On a fresh name it returns [None], and a further
    [add] of any definition with the same name returns the first one. *)
Theorem add_spec (definition other : string) (self : MacroDefinitions) :
  ∃ self',
    add definition self = Ok (_dict self !! _get_name definition, self')
    ∧ _dict self' = <[_get_name definition := definition]> (_dict self)
    ∧ _dict self' !! _get_name definition = Some definition
    ∧ (∀ name, name ≠ _get_name definition →
         _dict self' !! name = _dict self !! name)
    ∧ (_dict self !! _get_name definition = None →
         add definition self = Ok (None, self'))
    ∧ (_get_name other = _get_name definition →
         ∃ self'', add other self' = Ok (Some definition, self'')
                   ∧ _dict self'' !! _get_name definition = Some other).
Proof.
  eexists. split; [apply add_run|]. cbn [_dict].
  split; [done|].
  split; [apply lookup_insert_eq|].
  split; [by intros name Hne; apply lookup_insert_ne|].
  split; [by intros Hnone; rewrite add_run, Hnone|].
  intros Hname. eexists. rewrite add_run. cbn [_dict].
  rewrite Hname, lookup_insert_eq. split; [done|].
  apply lookup_insert_eq.
Qed.

Lemma add_spec_witness :
  ∃ self',
    add "foo=bar" __init__ = Ok (None, self')
    ∧ ∃ self'', add "foo" self' = Ok (Some "foo=bar", self'')
                ∧ _dict self'' !! "foo" = Some "foo".
Proof.
  destruct (add_spec "foo=bar" "foo" __init__)
    as (self' & _ & _ & _ & _ & Hfresh & Hagain).
  exists self'. split; [apply Hfresh; reflexivity|].
  apply Hagain. reflexivity.
Defined.

(** ** [as_list] *)

(** C3: [as_list] returns the stored definitions, each as often as it is
    stored, in ascending order of the whole definition string.  Three adds
    in the order a=1, c=2, b=3 read back as a=1, b=3, c=2; the names of the
    list need not be ascending (a! sorts before a=1 although the name a
    sorts before the name a!); a new registry reads back as the empty
    list. *)
Theorem as_list_sorted (self : MacroDefinitions) :
  (∃ l, as_list self = Ok (l, self)
        ∧ Sorted String.le l
        ∧ StronglySorted String.le l
        ∧ l ≡ₚ (map_to_list (_dict self)).*2
        ∧ (∀ d, d ∈ l ↔ ∃ name, _dict self !! name = Some d)
        ∧ length l = size (_dict self))
  ∧ (add "a=1";; add "c=2";; add "b=3";; as_list) __init__
    = Ok (["a=1"; "b=3"; "c=2"],
          {| _dict := <["b" := "b=3"]> (<["c" := "c=2"]> (<["a" := "a=1"]> ∅)) |})
  ∧ (add "a=1";; add "a!";; as_list) __init__
    = Ok (["a!"; "a=1"],
          {| _dict := <["a!" := "a!"]> (<["a" := "a=1"]> ∅) |})
  ∧ ¬ String.le (_get_name "a!") (_get_name "a=1")
  ∧ as_list __init__ = Ok ([], __init__).
Proof.
  split; [|split; [|split; [|split]]].
  - exists (PyStr.sort (map_to_list (_dict self)).*2).
    split; [apply as_list_run|].
    split; [apply sort_Sorted|].
    split; [apply sort_StronglySorted|].
    split; [apply sort_Permutation|].
    split.
    + intros d. rewrite sort_Permutation. apply elem_of_values.
    + by rewrite sort_Permutation, length_fmap, length_map_to_list.
  - by vm_compute.
  - by vm_compute.
  - by vm_compute.
  - by vm_compute.
Qed.

(** C8: [as_list] hands back the registry it was given, and a second call
    right after the first returns the same list. *)
Theorem as_list_pure (self : MacroDefinitions) :
  ∃ l, as_list self = Ok (l, self)
       ∧ (l1 ← as_list; l2 ← as_list; mret (l1, l2)) self = Ok ((l, l), self).
Proof.
  exists (PyStr.sort (map_to_list (_dict self)).*2).
  split; [apply as_list_run|].
  by rewrite bind_run, as_list_run, bind_run, as_list_run.
Qed.

(** C10: the empty definition is an entry like any other.  On a new
    registry [add ""] returns [None] and stores the empty definition under
    the empty name, [as_list] then returns the one empty string, and
    [remove ""] returns [Some ""] (not [None]) and leaves the registry
    empty. *)
Theorem empty_definition_is_an_entry :
  add "" __init__ = Ok (None, {| _dict := {[ "" := "" ]} |})
  ∧ as_list {| _dict := {[ "" := "" ]} |}
    = Ok ([""], {| _dict := {[ "" := "" ]} |})
  ∧ remove "" {| _dict := {[ "" := "" ]} |} = Ok (Some "", __init__)
  ∧ as_list __init__ = Ok ([], __init__)
  ∧ remove "" __init__ = Ok (None, __init__).
Proof. repeat split; by vm_compute. Qed.

(** ** The class invariant *)

Lemma wf_init : wf __init__.
Proof. apply map_Forall_empty. Qed.

Lemma wf_add (definition : string) (self : MacroDefinitions) :
  wf self →
  ∃ old self', add definition self = Ok (old, self') ∧ wf self'.
Proof.
  intros Hwf. do 2 eexists. split; [apply add_run|].
  unfold wf. cbn [_dict]. by apply map_Forall_insert_2.
Qed.

Lemma wf_remove (name : string) (self : MacroDefinitions) :
  wf self →
  ∃ old self', remove name self = Ok (old, self') ∧ wf self'.
Proof.
  intros Hwf. do 2 eexists. split; [apply remove_run|].
  unfold wf. cbn [_dict]. by apply map_Forall_delete.
Qed.

Lemma wf_run_op (o : op) (self : MacroDefinitions) :
  wf self → ∃ self', run_op o self = Ok (tt, self') ∧ wf self'.
Proof.
  intros Hwf. destruct o as [definition|name|]; cbn [run_op]; rewrite bind_run.
  - destruct (wf_add definition self Hwf) as (old & self' & -> & Hwf'). eauto.
  - destruct (wf_remove name self Hwf) as (old & self' & -> & Hwf'). eauto.
  - rewrite as_list_run. eauto.
Qed.

Lemma wf_run_ops (ops : list op) (self : MacroDefinitions) :
  wf self → ∃ self', for_each ops run_op self = Ok (tt, self') ∧ wf self'.
Proof.
  revert self. induction ops as [|o ops IH]; intros self Hwf.
  - exists self. by rewrite for_each_nil.
  - rewrite for_each_cons.
    destruct (wf_run_op o self Hwf) as (self1 & -> & Hwf1). by apply IH.
Qed.

(** Under the invariant the names of the stored definitions are the keys
    of the dictionary. *)
Lemma wf_names_keys (self : MacroDefinitions) :
  wf self →
  _get_name <$> (map_to_list (_dict self)).*2 = (map_to_list (_dict self)).*1.
Proof.
  intros Hwf. rewrite <- list_fmap_compose.
  apply Forall_fmap_ext_1, Forall_forall. intros [name definition] Hin. cbn.
  apply elem_of_map_to_list in Hin. by apply Hwf.
Qed.

Lemma wf_names_NoDup (self : MacroDefinitions) :
  wf self → NoDup (_get_name <$> (map_to_list (_dict self)).*2).
Proof.
  intros Hwf. rewrite wf_names_keys by done. apply NoDup_fst_map_to_list.
Qed.

(** ** [remove] *)

(** C5: [remove] never raises and returns what was stored under the name.
    Afterwards the name is unbound and the other names are untouched; on a
    registry that satisfies the class invariant [wf] (as every registry
    built with the methods does, see [wf_run_ops]) no definition read back
    by [as_list] has the removed name, and neither the removed definition
    nor the name itself is in that list.  When the name was unbound the
    registry is the one given, and [as_list] reads the same. *)
Theorem remove_spec (name : string) (self : MacroDefinitions) :
  ∃ self',
    remove name self = Ok (_dict self !! name, self')
    ∧ _dict self' !! name = None
    ∧ (∀ other, other ≠ name → _dict self' !! other = _dict self !! other)
    ∧ (wf self →
         ∃ l, as_list self' = Ok (l, self')
              ∧ (∀ d, d ∈ l → _get_name d ≠ name)
              ∧ (∀ old, _dict self !! name = Some old → (old ∉ l) ∧ (name ∉ l)))
    ∧ (_dict self !! name = None →
         remove name self = Ok (None, self)
         ∧ self' = self
         ∧ as_list self' = as_list self).
Proof.
  eexists. split; [apply remove_run|]. cbn [_dict].
  split; [apply lookup_delete_eq|].
  split; [by intros other Hne; apply lookup_delete_ne|].
  split.
  - intros Hwf. eexists. split; [apply as_list_run|]. cbn [_dict].
    assert (∀ d, d ∈ PyStr.sort (map_to_list (delete name (_dict self))).*2 →
                 _get_name d ≠ name) as Hgone.
    { intros d Hd Hname. rewrite sort_Permutation in Hd.
      apply elem_of_values in Hd as (key & Hkey).
      assert (key ≠ name) as Hne
        by (intros ->; by rewrite lookup_delete_eq in Hkey).
      rewrite lookup_delete_ne in Hkey by done.
      apply Hwf in Hkey. cbn in Hkey. congruence. }
    split; [done|]. intros old Hold.
    pose proof (Hwf _ _ Hold) as Hname. cbn in Hname.
    split; intros Hin; apply Hgone in Hin; [done|].
    apply Hin, get_name_no_equal. rewrite <- Hname. apply get_name_equal_free.
  - intros Hnone.
    assert ({| _dict := delete name (_dict self) |} = self) as Heq.
    { rewrite delete_id by done. by destruct self. }
    rewrite Heq. split; [|done]. by rewrite remove_run, Hnone, Heq.
Qed.

Lemma remove_spec_witness :
  (∃ self',
     remove "foo" {| _dict := {[ "foo" := "foo=bar" ]} |}
     = Ok (Some "foo=bar", self')
     ∧ ∃ l, as_list self' = Ok (l, self')
            ∧ (∀ d, d ∈ l → _get_name d ≠ "foo")
            ∧ ("foo=bar" ∉ l) ∧ ("foo" ∉ l))
  ∧ remove "foo" __init__ = Ok (None, __init__).
Proof.
  split.
  - destruct (remove_spec "foo" {| _dict := {[ "foo" := "foo=bar" ]} |})
      as (self' & Hrun & _ & _ & Hgone & _).
    exists self'. split; [exact Hrun|].
    destruct Hgone as (l & Hl & Hnames & Hold).
    { unfold wf. cbn [_dict]. by apply map_Forall_singleton. }
    exists l. split; [exact Hl|]. split; [exact Hnames|].
    apply Hold. reflexivity.
  - destruct (remove_spec "foo" __init__) as (self' & _ & _ & _ & _ & Hnone).
    apply Hnone. reflexivity.
Defined.

(** ** One definition per name *)

(** C6: from a new registry every sequence of [add], [remove] and
    [as_list] calls runs without raising and ends in a registry that
    satisfies the invariant; the definitions [as_list] then returns have
    pairwise distinct names, so two of them with the same name are the
    same definition. *)
Theorem one_definition_per_name (ops : list op) :
  ∃ self,
    for_each ops run_op __init__ = Ok (tt, self)
    ∧ wf self
    ∧ ∃ l, as_list self = Ok (l, self)
           ∧ NoDup (_get_name <$> l)
           ∧ ∀ d1 d2, d1 ∈ l → d2 ∈ l → _get_name d1 = _get_name d2 → d1 = d2.
Proof.
  destruct (wf_run_ops ops __init__ wf_init) as (self & Hrun & Hwf).
  exists self. split; [done|]. split; [done|].
  eexists. split; [apply as_list_run|]. split.
  - rewrite sort_Permutation. by apply wf_names_NoDup.
  - intros d1 d2 Hd1 Hd2 Hname. rewrite sort_Permutation in Hd1, Hd2.
    apply elem_of_values in Hd1 as (k1 & Hk1), Hd2 as (k2 & Hk2).
    pose proof (Hwf _ _ Hk1) as H1. pose proof (Hwf _ _ Hk2) as H2.
    cbn in H1, H2. congruence.
Qed.

(** ** Insertion order *)

(** The dictionary after a run of [add]s. *)
Lemma add_all_run (l : list string) (self : MacroDefinitions) :
  add_all l self
  = Ok (tt, {| _dict := foldl (λ m d, <[_get_name d := d]> m) (_dict self) l |}).
Proof.
  unfold add_all. revert self. induction l as [|d l IH]; intros self.
  - rewrite for_each_nil. by destruct self.
  - rewrite for_each_cons, bind_run, add_run. cbn [mret M_ret ret].
    by rewrite IH.
Qed.

(** Inserting definitions with distinct names commutes. *)
Lemma foldl_insert_Permutation (l1 l2 : list string) (m : gmap string string) :
  l1 ≡ₚ l2 → NoDup (_get_name <$> l1) →
  foldl (λ m d, <[_get_name d := d]> m) m l1
  = foldl (λ m d, <[_get_name d := d]> m) m l2.
Proof.
  intros Hp. revert m.
  induction Hp as [|d l1 l2 Hp IH|d1 d2 l|l1 l2 l3 Hp1 IH1 Hp2 IH2];
    intros m Hnd.
  - done.
  - cbn [foldl]. apply IH. cbn [fmap list_fmap] in Hnd.
    by apply NoDup_cons in Hnd as [_ ?].
  - cbn [foldl]. f_equal. apply insert_insert_ne.
    cbn [fmap list_fmap] in Hnd. apply NoDup_cons in Hnd as [Hnin _].
    intros Heq. apply Hnin. rewrite Heq. left.
  - rewrite IH1 by done. apply IH2. by rewrite <- Hp1.
Qed.

(** The values stored after adding definitions with distinct, fresh
    names: the old values and the new definitions. *)
Lemma values_foldl_insert (l : list string) (m : gmap string string) :
  NoDup (_get_name <$> l) →
  (∀ d, d ∈ l → m !! _get_name d = None) →
  (map_to_list (foldl (λ m d, <[_get_name d := d]> m) m l)).*2
  ≡ₚ (map_to_list m).*2 ++ l.
Proof.
  revert m. induction l as [|d l IH]; intros m Hnd Hfresh.
  - cbn [foldl]. by rewrite app_nil_r.
  - cbn [foldl]. cbn [fmap list_fmap] in Hnd.
    apply NoDup_cons in Hnd as [Hnin Hnd].
    rewrite IH; [|done|].
    + rewrite map_to_list_insert by (apply Hfresh; left).
      cbn [fmap list_fmap snd]. rewrite <- app_comm_cons.
      apply Permutation_middle.
    + intros d' Hd'. rewrite lookup_insert_ne.
      * apply Hfresh. by right.
      * intros Heq. apply Hnin. rewrite Heq. by apply list_elem_of_fmap_2.
Qed.

(** C7: two runs of [add] over lists that are permutations of one another,
    the definitions having pairwise distinct names, end in the same
    registry whatever the registry they start from, so [as_list] reads the
    same list after both; started on a new registry that list is the
    sorted list of the definitions added. *)
Theorem insertion_order_irrelevant (l1 l2 : list string)
    (self : MacroDefinitions) :
  l1 ≡ₚ l2 → NoDup (_get_name <$> l1) →
  (∃ self' out,
     add_all l1 self = Ok (tt, self')
     ∧ add_all l2 self = Ok (tt, self')
     ∧ (add_all l1;; as_list) self = Ok (out, self')
     ∧ (add_all l2;; as_list) self = Ok (out, self'))
  ∧ (∃ self',
       (add_all l1;; as_list) __init__ = Ok (PyStr.sort l1, self')
       ∧ (add_all l2;; as_list) __init__ = Ok (PyStr.sort l1, self')
       ∧ PyStr.sort l1 = PyStr.sort l2
       ∧ Sorted String.le (PyStr.sort l1)
       ∧ PyStr.sort l1 ≡ₚ l1).
Proof.
  intros Hp Hnd. split.
  - do 2 eexists. rewrite !bind_run, !add_all_run.
    rewrite <- (foldl_insert_Permutation l1 l2) by done.
    rewrite as_list_run. done.
  - eexists. rewrite !bind_run, !add_all_run.
    rewrite <- (foldl_insert_Permutation l1 l2) by done.
    rewrite as_list_run. cbn [_dict __init__].
    assert (PyStr.sort
              (map_to_list (foldl (λ m d, <[_get_name d := d]> m) ∅ l1)).*2
            = PyStr.sort l1) as ->.
    { apply sort_order_irrelevant.
      rewrite values_foldl_insert; [|done|by intros; apply lookup_empty].
      by rewrite map_to_list_empty. }
    split; [done|]. split; [done|].
    split; [by apply sort_order_irrelevant|].
    split; [apply sort_Sorted | apply sort_Permutation].
Qed.

Lemma insertion_order_irrelevant_witness :
  ∃ self',
    (add_all ["a=1"; "c=2"; "b=3"];; as_list) __init__
    = Ok (["a=1"; "b=3"; "c=2"], self')
    ∧ (add_all ["b=3"; "a=1"; "c=2"];; as_list) __init__
      = Ok (["a=1"; "b=3"; "c=2"], self').
Proof.
  assert (["a=1"; "c=2"; "b=3"] ≡ₚ ["b=3"; "a=1"; "c=2"]) as Hp.
  { etrans; [apply perm_skip, perm_swap | apply perm_swap]. }
  assert (NoDup (_get_name <$> ["a=1"; "c=2"; "b=3"])) as Hnd.
  { compute_done. }
  destruct (insertion_order_irrelevant _ _ __init__ Hp Hnd)
    as (_ & self' & H1 & H2 & _).
  exists self'. split; [exact H1 | exact H2].
Defined.

(** ** The loops of [main] *)

Lemma append_assoc (a b c : string) : (a +:+ b) +:+ c = a +:+ b +:+ c.
Proof.
  induction a as [|x a IH]; [done|].
  rewrite !append_cons. by rewrite IH.
Qed.

Lemma for_each_raise_iff {A} (l : list A) (body : A → M unit)
    (self : MacroDefinitions) (e : exn) :
  for_each l body self = Raise e
  ↔ ∃ pre x post self1,
      l = pre ++ x :: post
      ∧ for_each pre body self = Ok (tt, self1)
      ∧ body x self1 = Raise e.
Proof.
  split.
  - revert self. induction l as [|x l IH]; intros self; [done|].
    rewrite for_each_cons.
    destruct (body x self) as [[[] self1]|e'] eqn:Hbody.
    + intros (pre & y & post & self2 & -> & Hpre & Hy)%IH.
      exists (x :: pre), y, post, self2. split; [done|].
      by rewrite for_each_cons, Hbody.
    + intros [= ->]. by exists [], x, l, self.
  - intros (pre & x & post & self1 & -> & Hpre & Hx).
    by rewrite for_each_app, Hpre, for_each_cons, Hx.
Qed.

Lemma merge_define_run (define : string) (self : MacroDefinitions) :
  merge_define define self
  = match _dict self !! _get_name define with
    | Some old =>
        if bool_decide (old ≠ define)
        then Raise (RuntimeError (conflict_message old define))
        else Ok (tt, {| _dict := <[_get_name define := define]> (_dict self) |})
    | None =>
        Ok (tt, {| _dict := <[_get_name define := define]> (_dict self) |})
    end.
Proof.
  unfold merge_define. rewrite bind_run, add_run.
  destruct (_dict self !! _get_name define) as [old|]; [|done].
  by case_bool_decide.
Qed.

(** A define that passes the check has been added. *)
Lemma merge_define_ok (define : string) (self self' : MacroDefinitions) :
  merge_define define self = Ok (tt, self') →
  ∃ old, add define self = Ok (old, self').
Proof.
  rewrite merge_define_run, add_run.
  destruct (_dict self !! _get_name define) as [old|]; [|intros [= <-]; eauto].
  case_bool_decide; [done|]. intros [= <-]. eauto.
Qed.

Lemma merge_defines_ok (l : list string) (self self' : MacroDefinitions) :
  for_each l merge_define self = Ok (tt, self') →
  add_all l self = Ok (tt, self').
Proof.
  unfold add_all. revert self. induction l as [|d l IH]; intros self; [done|].
  rewrite !for_each_cons, bind_run.
  destruct (merge_define d self) as [[[] self1]|e] eqn:Hd; [|done].
  apply merge_define_ok in Hd as (old & ->). cbn [mret M_ret ret]. apply IH.
Qed.

(** The nested loops visit the defines of all dependencies in order. *)
Lemma merge_dependencies_flat (info_data : list dep_info)
    (self : MacroDefinitions) :
  merge_dependencies info_data self
  = for_each (concat (defines <$> info_data)) merge_define self.
Proof.
  unfold merge_dependencies. revert self.
  induction info_data as [|dep info_data IH]; intros self; [done|].
  cbn [fmap list_fmap concat]. rewrite for_each_cons, for_each_app.
  destruct (for_each (defines dep) merge_define self) as [[[] self1]|e];
    [apply IH | done].
Qed.

Lemma merge_dependencies_wf (info_data : list dep_info)
    (self self' : MacroDefinitions) :
  wf self → merge_dependencies info_data self = Ok (tt, self') → wf self'.
Proof.
  intros Hwf Hrun. rewrite merge_dependencies_flat in Hrun.
  apply merge_defines_ok in Hrun. rewrite add_all_run in Hrun.
  injection Hrun as <-. unfold wf in *. cbn [_dict].
  generalize dependent (_dict self). clear self.
  induction (concat (defines <$> info_data)) as [|d l IH]; intros m Hwf; [done|].
  cbn [foldl]. apply IH. by apply map_Forall_insert_2.
Qed.

Lemma remove_all_run (l : list string) (self : MacroDefinitions) :
  for_each l (λ undefine, remove undefine;; mret tt) self
  = Ok (tt, {| _dict := foldl (λ m name, delete name m) (_dict self) l |}).
Proof.
  revert self. induction l as [|name l IH]; intros self.
  - rewrite for_each_nil. by destruct self.
  - rewrite for_each_cons, bind_run, remove_run. cbn [mret M_ret ret].
    by rewrite IH.
Qed.

Lemma apply_user_run (a : args) (self : MacroDefinitions) :
  apply_user a self
  = Ok (tt, {| _dict :=
                 foldl (λ m name, delete name m)
                   (foldl (λ m d, <[_get_name d := d]> m) (_dict self) (define a))
                   (undefine a) |}).
Proof.
  unfold apply_user. rewrite bind_run.
  change (for_each (define a) _) with (add_all (define a)).
  by rewrite add_all_run, remove_all_run.
Qed.

Lemma lookup_foldl_delete_None (l : list string) (m : gmap string string)
    (name : string) :
  m !! name = None → foldl (λ m name, delete name m) m l !! name = None.
Proof.
  revert m. induction l as [|x l IH]; intros m Hnone; [done|].
  cbn [foldl]. apply IH. rewrite lookup_delete_None. by right.
Qed.

Lemma lookup_foldl_delete (l : list string) (m : gmap string string)
    (name : string) :
  name ∈ l → foldl (λ m name, delete name m) m l !! name = None.
Proof.
  revert m. induction l as [|x l IH]; intros m Hin; [by apply elem_of_nil in Hin|].
  cbn [foldl]. apply elem_of_cons in Hin as [->|Hin]; [|by apply IH].
  apply lookup_foldl_delete_None, lookup_delete_eq.
Qed.

Lemma apply_user_wf (a : args) (self self' : MacroDefinitions) :
  wf self → apply_user a self = Ok (tt, self') → wf self'.
Proof.
  rewrite apply_user_run. intros Hwf [= <-]. unfold wf in *. cbn [_dict].
  assert (map_Forall (λ name definition, _get_name definition = name)
            (foldl (λ m d, <[_get_name d := d]> m) (_dict self) (define a)))
    as Hadd.
  { generalize dependent (_dict self). clear self.
    induction (define a) as [|d l IH]; intros m Hwf; [done|].
    cbn [foldl]. apply IH. by apply map_Forall_insert_2. }
  revert Hadd. generalize (foldl (λ m d, <[_get_name d := d]> m)
                             (_dict self) (define a)).
  induction (undefine a) as [|name l IH]; intros m Hm; [done|].
  cbn [foldl]. apply IH. by apply map_Forall_delete.
Qed.

(** C9: the loops over the user's defines and undefines never raise: from
    any registry they insert each define under its name, whatever was
    there, and then delete each undefine.  So when the dependencies merge
    without conflict [main] obtains a list of defines, and no definition
    in it has a name given to [--undefine]: a dependency's DEBUG is gone
    after [--undefine DEBUG], undefining a name that was never defined
    goes through, and a user's X=2 replaces a dependency's X=1. *)
Theorem user_options_never_raise (info_data : list dep_info) (a : args)
    (self : MacroDefinitions) :
  (∃ self',
     apply_user a self = Ok (tt, self')
     ∧ _dict self'
       = foldl (λ m name, delete name m)
           (foldl (λ m d, <[_get_name d := d]> m) (_dict self) (define a))
           (undefine a))
  ∧ (merge_dependencies info_data __init__ = Ok (tt, self) →
     ∃ self' out,
       apply_user a self = Ok (tt, self')
       ∧ as_list self' = Ok (out, self')
       ∧ main_defines info_data a = Ok out
       ∧ ∀ name, name ∈ undefine a → ∀ d, d ∈ out → _get_name d ≠ name)
  ∧ (∀ e, merge_dependencies info_data __init__ = Raise e →
          main_defines info_data a = Raise e)
  ∧ main_defines [ {| include_paths := []; defines := ["DEBUG"] |} ]
                 {| define := []; undefine := ["DEBUG"] |} = Ok []
  ∧ main_defines [] {| define := []; undefine := ["DEBUG"] |} = Ok []
  ∧ main_defines [ {| include_paths := []; defines := ["X=1"] |} ]
                 {| define := ["X=2"]; undefine := [] |} = Ok ["X=2"].
Proof.
  split; [eexists; split; [apply apply_user_run | done]|].
  split; [|split; [|repeat split; by vm_compute]].
  - intros Hmerge.
    pose proof (merge_dependencies_wf _ _ _ wf_init Hmerge) as Hwf.
    pose proof (apply_user_wf a self _ Hwf (apply_user_run a self)) as Hwf'.
    do 2 eexists. split; [apply apply_user_run|].
    split; [apply as_list_run|]. split.
    + unfold main_defines. by rewrite bind_run, Hmerge, bind_run, apply_user_run.
    + cbn [_dict]. intros name Hname d Hd Heq.
      rewrite sort_Permutation in Hd.
      apply elem_of_values in Hd as (key & Hkey).
      pose proof (Hwf' _ _ Hkey) as Hk. cbn in Hk.
      rewrite <- Hk, Heq, lookup_foldl_delete in Hkey by done. done.
  - intros e Hmerge. unfold main_defines. by rewrite bind_run, Hmerge.
Qed.

Lemma user_options_never_raise_witness :
  ∃ self' out,
    apply_user {| define := ["X=2"; "Y"]; undefine := ["DEBUG"; "Z"] |}
      {| _dict := <["DEBUG" := "DEBUG"]> {[ "X" := "X=1" ]} |}
    = Ok (tt, self')
    ∧ as_list self' = Ok (out, self')
    ∧ main_defines
        [ {| include_paths := []; defines := ["X=1"; "DEBUG"] |} ]
        {| define := ["X=2"; "Y"]; undefine := ["DEBUG"; "Z"] |} = Ok out
    ∧ ∀ name, name ∈ ["DEBUG"; "Z"] → ∀ d, d ∈ out → _get_name d ≠ name.
Proof.
  destruct (user_options_never_raise
              [ {| include_paths := []; defines := ["X=1"; "DEBUG"] |} ]
              {| define := ["X=2"; "Y"]; undefine := ["DEBUG"; "Z"] |}
              {| _dict := <["DEBUG" := "DEBUG"]> {[ "X" := "X=1" ]} |})
    as (_ & Hmain & _).
  apply Hmain. by vm_compute.
Defined.

(** ** Conflicting defines of the dependencies *)

Lemma occurs_in_conflict_message (old define : string) :
  PyStr.occurs_in old (conflict_message old define)
  ∧ PyStr.occurs_in define (conflict_message old define).
Proof.
  unfold conflict_message, PyStr.occurs_in. split.
  - eexists ("Multiple defines from conan dependencies for the same macro: "
             +:+ PyStr.dquote), _.
    by rewrite append_assoc.
  - eexists ("Multiple defines from conan dependencies for the same macro: "
             +:+ PyStr.dquote +:+ old +:+ PyStr.dquote +:+ " and "
             +:+ PyStr.dquote), _.
    by rewrite !append_assoc.
Qed.

(** C1: the loop over the dependencies feeds their defines to [add] one
    after the other.  A define raises the conflict error exactly when
    [add] returns an old definition that is not the define itself; the
    message then holds the old definition and the define.  When [add]
    returns [None] or the define itself the loop goes on with the registry
    [add] left.  So the merge raises [e] exactly when some define, reached
    after adding those before it without conflict, meets a different old
    definition, and [e] is the error for these two; a merge that returns
    has added every define in order.  Two dependencies that both define
    X=1 merge; X=1 against X=2 raises the error naming both. *)
Theorem conflict_raised_iff (info_data : list dep_info)
    (define : string) (self : MacroDefinitions) (e : exn) :
  (∃ self',
     add define self = Ok (_dict self !! _get_name define, self')
     ∧ (∀ old, _dict self !! _get_name define = Some old → old ≠ define →
          merge_define define self
          = Raise (RuntimeError (conflict_message old define))
          ∧ PyStr.occurs_in old (conflict_message old define)
          ∧ PyStr.occurs_in define (conflict_message old define))
     ∧ (_dict self !! _get_name define = None
        ∨ _dict self !! _get_name define = Some define →
          merge_define define self = Ok (tt, self'))
     ∧ (merge_define define self = Raise e
        ↔ ∃ old, _dict self !! _get_name define = Some old
                 ∧ old ≠ define
                 ∧ e = RuntimeError (conflict_message old define)))
  ∧ (merge_dependencies info_data self = Raise e
     ↔ ∃ pre d post self1 old self2,
         concat (defines <$> info_data) = pre ++ d :: post
         ∧ for_each pre merge_define self = Ok (tt, self1)
         ∧ add_all pre self = Ok (tt, self1)
         ∧ add d self1 = Ok (Some old, self2)
         ∧ old ≠ d
         ∧ e = RuntimeError (conflict_message old d))
  ∧ (∀ self', merge_dependencies info_data self = Ok (tt, self') →
       add_all (concat (defines <$> info_data)) self = Ok (tt, self'))
  ∧ main_defines [ {| include_paths := []; defines := ["X=1"] |};
                   {| include_paths := []; defines := ["X=1"] |} ]
                 {| define := []; undefine := [] |} = Ok ["X=1"]
  ∧ main_defines [ {| include_paths := []; defines := ["X=1"] |};
                   {| include_paths := []; defines := ["X=2"] |} ]
                 {| define := []; undefine := [] |}
    = Raise (RuntimeError (conflict_message "X=1" "X=2")).
Proof.
  assert (∀ d s e',
            merge_define d s = Raise e'
            ↔ ∃ old, _dict s !! _get_name d = Some old
                     ∧ old ≠ d
                     ∧ e' = RuntimeError (conflict_message old d)) as Hstep.
  { intros d s e'. rewrite merge_define_run.
    destruct (_dict s !! _get_name d) as [old|].
    - case_bool_decide as Hne; split.
      + intros [= <-]. eauto.
      + by intros (? & [= <-] & _ & ->).
      + done.
      + by intros (? & [= <-] & ? & _).
    - split; [done|]. by intros (? & ? & _). }
  split; [|split; [|split; [|split; by vm_compute]]].
  - eexists. split; [apply add_run|]. split; [|split].
    + intros old Hold Hne. split; [|apply occurs_in_conflict_message].
      rewrite merge_define_run, Hold. by rewrite bool_decide_true.
    + rewrite merge_define_run. intros [->| ->]; [done|].
      rewrite bool_decide_false; [done|]. by intros Hne; apply Hne.
    + apply Hstep.
  - rewrite merge_dependencies_flat, for_each_raise_iff. split.
    + intros (pre & d & post & self1 & Hsplit & Hpre & Hd).
      apply Hstep in Hd as (old & Hold & Hne & ->).
      exists pre, d, post, self1, old. eexists.
      split; [done|]. split; [done|]. split; [by apply merge_defines_ok|].
      split; [by rewrite add_run, Hold|]. done.
    + intros (pre & d & post & self1 & old & self2
              & Hsplit & Hpre & _ & Hadd & Hne & ->).
      exists pre, d, post, self1. split; [done|]. split; [done|].
      apply Hstep. exists old. rewrite add_run in Hadd. by injection Hadd as -> _.
  - intros self'. rewrite merge_dependencies_flat. apply merge_defines_ok.
Qed.

Lemma conflict_raised_iff_witness :
  merge_define "X=2" {| _dict := {[ "X" := "X=1" ]} |}
  = Raise (RuntimeError (conflict_message "X=1" "X=2"))
  ∧ merge_define "X=1" {| _dict := {[ "X" := "X=1" ]} |}
    = Ok (tt, {| _dict := {[ "X" := "X=1" ]} |})
  ∧ merge_dependencies
      [ {| include_paths := []; defines := ["X=1"] |};
        {| include_paths := []; defines := ["Y"; "X=2"; "Z"] |} ] __init__
    = Raise (RuntimeError (conflict_message "X=1" "X=2")).
Proof.
  split; [|split].
  - destruct (conflict_raised_iff [] "X=2" {| _dict := {[ "X" := "X=1" ]} |}
                (RuntimeError (conflict_message "X=1" "X=2")))
      as ((self' & _ & Hraise & _) & _).
    apply (Hraise "X=1"); [reflexivity | discriminate].
  - destruct (conflict_raised_iff [] "X=1" {| _dict := {[ "X" := "X=1" ]} |}
                (KeyError ""))
      as ((self' & Hadd & _ & Hpass & _) & _).
    injection Hadd as <-. apply Hpass. right. reflexivity.
  - destruct (conflict_raised_iff
                [ {| include_paths := []; defines := ["X=1"] |};
                  {| include_paths := []; defines := ["Y"; "X=2"; "Z"] |} ]
                "" __init__ (RuntimeError (conflict_message "X=1" "X=2")))
      as (_ & Hloop & _).
    apply Hloop.
    exists ["X=1"; "Y"], "X=2", ["Z"],
      {| _dict := <["Y" := "Y"]> {[ "X" := "X=1" ]} |}, "X=1",
      {| _dict := <["X" := "X=2"]> (<["Y" := "Y"]> {[ "X" := "X=1" ]}) |}.
    repeat split; by vm_compute.
Defined.

(** * Further properties of the code *)

(** ** Names *)

(** X1: the name [_get_name] returns holds no [=], so taking the name of a
    name changes nothing; a definition is its name, or its name followed
    by [=] and a value. *)
Theorem get_name_is_name (definition : string) :
  PyStr.contains "=" (_get_name definition) = false
  ∧ _get_name (_get_name definition) = _get_name definition
  ∧ (definition = _get_name definition
     ∨ ∃ v, definition = _get_name definition +:+ "=" +:+ v).
Proof.
  split; [apply get_name_equal_free|].
  split; [apply get_name_no_equal, get_name_equal_free|].
  destruct (PyStr.contains "=" definition) eqn:Hc.
  - right. destruct (contains_split _ _ Hc) as (n & v & -> & Hn).
    exists v. change (String "=" v) with ("=" +:+ v).
    by rewrite get_name_first_equal.
  - left. by rewrite get_name_no_equal.
Qed.

(** ** [add] and [remove] together *)

(** X2: on a registry that has nothing under the name of a definition,
    [add] of the definition followed by [remove] of its name returns the
    definition and gives back the registry as it was. *)
Theorem add_remove_round_trip (definition : string) (self : MacroDefinitions) :
  _dict self !! _get_name definition = None →
  (add definition;; remove (_get_name definition)) self
  = Ok (Some definition, self).
Proof.
  intros Hnone. rewrite bind_run, add_run, remove_run. cbn [_dict].
  rewrite lookup_insert_eq, delete_insert_eq, delete_id by done.
  by destruct self.
Qed.

Lemma add_remove_round_trip_witness :
  (add "foo=bar";; remove "foo") {| _dict := {[ "baz" := "baz=1" ]} |}
  = Ok (Some "foo=bar", {| _dict := {[ "baz" := "baz=1" ]} |}).
Proof.
  apply (add_remove_round_trip "foo=bar" {| _dict := {[ "baz" := "baz=1" ]} |}).
  reflexivity.
Defined.

(** X3: [add] of a definition that the registry already holds under its
    name returns that definition and leaves the registry as it is, and the
    conflict check of the dependency loop lets it pass. *)
Theorem add_again_changes_nothing (definition : string)
    (self : MacroDefinitions) :
  _dict self !! _get_name definition = Some definition →
  add definition self = Ok (Some definition, self)
  ∧ merge_define definition self = Ok (tt, self).
Proof.
  intros Hsome.
  assert ({| _dict := <[_get_name definition := definition]> (_dict self) |}
          = self) as Heq.
  { rewrite insert_id by done. by destruct self. }
  rewrite merge_define_run, add_run, Hsome, Heq.
  split; [done|]. rewrite bool_decide_false; [done|]. by intros Hne; apply Hne.
Qed.

Lemma add_again_changes_nothing_witness :
  add "foo=bar" {| _dict := {[ "foo" := "foo=bar" ]} |}
  = Ok (Some "foo=bar", {| _dict := {[ "foo" := "foo=bar" ]} |})
  ∧ merge_define "foo=bar" {| _dict := {[ "foo" := "foo=bar" ]} |}
    = Ok (tt, {| _dict := {[ "foo" := "foo=bar" ]} |}).
Proof.
  apply (add_again_changes_nothing "foo=bar"
           {| _dict := {[ "foo" := "foo=bar" ]} |}).
  reflexivity.
Defined.

(** ** The last definition of a name wins *)

Lemma last_definition_cons (name d : string) (l : list string) :
  last_definition name (d :: l)
  = match last_definition name l with
    | Some d' => Some d'
    | None => if decide (_get_name d = name) then Some d else None
    end.
Proof.
  unfold last_definition. rewrite filter_cons.
  case_decide; [apply last_cons | by destruct (last _)].
Qed.

Lemma lookup_foldl_insert (l : list string) (m : gmap string string)
    (name : string) :
  foldl (λ m d, <[_get_name d := d]> m) m l !! name
  = match last_definition name l with
    | Some d => Some d
    | None => m !! name
    end.
Proof.
  revert m. induction l as [|d l IH]; intros m; [done|].
  cbn [foldl]. rewrite IH, last_definition_cons.
  destruct (last_definition name l); [done|].
  rewrite lookup_insert. by case_decide.
Qed.

Lemma last_definition_Some (name d : string) (l : list string) :
  last_definition name l = Some d → d ∈ l ∧ _get_name d = name.
Proof.
  unfold last_definition. intros Hlast%last_Some_elem_of.
  apply list_elem_of_filter in Hlast. tauto.
Qed.

Lemma last_definition_None (name : string) (l : list string) :
  last_definition name l = None ↔ ∀ d, d ∈ l → _get_name d ≠ name.
Proof.
  unfold last_definition. rewrite last_None. split.
  - intros Hnil d Hd Hname. revert Hd.
    eapply filter_nil_not_elem_of; [exact Hnil | exact Hname].
  - intros Hno. destruct (filter _ l) as [|d l'] eqn:Hf; [done|].
    assert (d ∈ filter (λ d, _get_name d = name) l) as Hd by (rewrite Hf; left).
    apply list_elem_of_filter in Hd as [Hname Hd]. by apply Hno in Hd.
Qed.

(** X4: after a run of [add]s every name is bound to the last definition
    of the run that has this name, and a name none of them has keeps what
    it was bound to before. *)
Theorem last_add_wins (l : list string) (self : MacroDefinitions) :
  ∃ self',
    add_all l self = Ok (tt, self')
    ∧ ∀ name,
        _dict self' !! name
        = match last_definition name l with
          | Some d => Some d
          | None => _dict self !! name
          end.
Proof.
  eexists. split; [apply add_all_run|]. cbn [_dict].
  intros name. apply lookup_foldl_insert.
Qed.

(** ** When the dependencies merge *)

Lemma stores_init : stores [] __init__.
Proof.
  intros name d. cbn [_dict __init__]. rewrite lookup_empty, elem_of_nil.
  split; [done | by intros [[] _]].
Qed.

Lemma stores_wf (ds : list string) (self : MacroDefinitions) :
  stores ds self → wf self.
Proof. intros Hst name d Hget. by apply Hst in Hget as [_ ?]. Qed.

Lemma stores_consistent (ds : list string) (self : MacroDefinitions) :
  stores ds self → consistent ds.
Proof.
  intros Hst d1 d2 Hd1 Hd2 Hname.
  assert (_dict self !! _get_name d1 = Some d1) as H1 by by apply Hst.
  assert (_dict self !! _get_name d1 = Some d2) as H2 by by apply Hst.
  congruence.
Qed.

(** Two registries that store the same definitions are the same. *)
Lemma stores_unique (ds1 ds2 : list string) (self1 self2 : MacroDefinitions) :
  (∀ d, d ∈ ds1 ↔ d ∈ ds2) → stores ds1 self1 → stores ds2 self2 →
  self1 = self2.
Proof.
  intros Hds H1 H2. destruct self1 as [m1], self2 as [m2]. f_equal.
  apply map_eq. intros name. apply option_eq. intros d.
  unfold stores in *. cbn [_dict] in *. rewrite H1, H2, Hds. done.
Qed.

(** One define of a dependency, on a registry that stores the defines
    met so far. *)
Lemma merge_define_stores (pre : list string) (d : string)
    (self : MacroDefinitions) :
  stores pre self →
  match merge_define d self with
  | Ok (_, self') => stores (pre ++ [d]) self'
  | Raise e =>
      ∃ old, e = RuntimeError (conflict_message old d)
             ∧ old ∈ pre ∧ _get_name old = _get_name d ∧ old ≠ d
  end.
Proof.
  intros Hst. rewrite merge_define_run.
  assert (stores (pre ++ [d])
            {| _dict := <[_get_name d := d]> (_dict self) |}
          ∨ ∃ old, _dict self !! _get_name d = Some old ∧ old ≠ d) as Hcases.
  { destruct (_dict self !! _get_name d) as [old|] eqn:Hget.
    - destruct (decide (old = d)) as [->|Hne]; [|right; eauto].
      left. intros name d'. cbn [_dict]. rewrite lookup_insert, elem_of_app.
      rewrite list_elem_of_singleton. case_decide as Hn.
      + subst name. split; [intros [= <-]; auto|].
        intros [[Hd'| ->] Hname]; [|done].
        f_equal. symmetry.
        assert (_dict self !! _get_name d = Some d') as H' by by apply Hst.
        congruence.
      + rewrite (Hst name d'). split; [intros [? ?]; auto|].
        intros [[?| ->] ?]; [auto | done].
    - left. intros name d'. cbn [_dict]. rewrite lookup_insert, elem_of_app.
      rewrite list_elem_of_singleton. case_decide as Hn.
      + subst name. split; [intros [= <-]; auto|].
        intros [[Hd'| ->] Hname]; [|done].
        assert (_dict self !! _get_name d = Some d') as H' by by apply Hst.
        congruence.
      + rewrite (Hst name d'). split; [intros [? ?]; auto|].
        intros [[?| ->] ?]; [auto | done]. }
  destruct (_dict self !! _get_name d) as [old|] eqn:Hget.
  - case_bool_decide as Hne.
    + exists old. apply Hst in Hget as [? ?]. done.
    + destruct Hcases as [?|(old' & [= <-] & ?)]; done.
  - destruct Hcases as [?|(old' & [=] & ?)]; done.
Qed.

(** The defines of the dependencies, on a registry that stores the defines
    met so far: either all are stored in the end, or the error names a
    define and a different definition of the same name met before it. *)
Lemma merge_defines_stores (ds pre : list string) (self : MacroDefinitions) :
  stores pre self →
  match for_each ds merge_define self with
  | Ok (_, self') => stores (pre ++ ds) self'
  | Raise e =>
      ∃ mid d post old,
        ds = mid ++ d :: post
        ∧ e = RuntimeError (conflict_message old d)
        ∧ old ∈ pre ++ mid ∧ _get_name old = _get_name d ∧ old ≠ d
  end.
Proof.
  revert pre self. induction ds as [|d ds IH]; intros pre self Hst.
  - rewrite for_each_nil. by rewrite app_nil_r.
  - rewrite for_each_cons.
    pose proof (merge_define_stores pre d self Hst) as Hd.
    destruct (merge_define d self) as [[[] self1]|e].
    + specialize (IH (pre ++ [d]) self1 Hd).
      destruct (for_each ds merge_define self1) as [[[] self2]|e].
      * by rewrite <- app_assoc in IH.
      * destruct IH as (mid & d' & post & old & -> & -> & Hold & Hname & Hne).
        exists (d :: mid), d', post, old. rewrite <- app_assoc in Hold. done.
    + destruct Hd as (old & -> & Hold & Hname & Hne).
      exists [], d, ds, old. by rewrite app_nil_r.
Qed.

Lemma main_defines_run (info_data : list dep_info) (a : args) :
  main_defines info_data a
  = match merge_dependencies info_data __init__ with
    | Ok (_, self) =>
        Ok (PyStr.sort
              (map_to_list
                 (foldl (λ m name, delete name m)
                    (foldl (λ m d, <[_get_name d := d]> m) (_dict self)
                       (define a))
                    (undefine a))).*2)
    | Raise e => Raise e
    end.
Proof.
  unfold main_defines. rewrite bind_run.
  destruct (merge_dependencies info_data __init__) as [[[] self]|e]; [|done].
  by rewrite bind_run, apply_user_run, as_list_run.
Qed.

(** The two ways the merge of the dependencies can end. *)
Lemma merge_dependencies_cases (info_data : list dep_info) :
  (∃ self,
     merge_dependencies info_data __init__ = Ok (tt, self)
     ∧ stores (concat (defines <$> info_data)) self
     ∧ consistent (concat (defines <$> info_data)))
  ∨ (∃ mid d post old,
       concat (defines <$> info_data) = mid ++ d :: post
       ∧ merge_dependencies info_data __init__
         = Raise (RuntimeError (conflict_message old d))
       ∧ old ∈ mid ∧ _get_name old = _get_name d ∧ old ≠ d
       ∧ ¬ consistent (concat (defines <$> info_data))).
Proof.
  rewrite merge_dependencies_flat.
  pose proof (merge_defines_stores (concat (defines <$> info_data)) []
                __init__ stores_init) as Hrun.
  destruct (for_each _ merge_define __init__) as [[[] self]|e].
  - left. exists self. split; [done|]. split; [done|].
    by apply stores_consistent in Hrun.
  - right. destruct Hrun as (mid & d & post & old & Hds & -> & Hold & Hname & Hne).
    exists mid, d, post, old. repeat split; try done.
    intros Hc. apply Hne, Hc; [| |done]; rewrite Hds.
    + apply elem_of_app. by left.
    + apply elem_of_app. right. left.
Qed.

(** X5: [main] gets its list of defines exactly when the defines of the
    dependencies agree, that is when any two of them with the same name
    are the same definition; otherwise it raises.  The user's options have
    no part in this. *)
Theorem merge_succeeds_iff_consistent (info_data : list dep_info) (a : args) :
  ((∃ out, main_defines info_data a = Ok out)
   ↔ consistent (concat (defines <$> info_data)))
  ∧ ((∃ e, main_defines info_data a = Raise e)
     ↔ ¬ consistent (concat (defines <$> info_data))).
Proof.
  rewrite main_defines_run.
  destruct (merge_dependencies_cases info_data)
    as [(self & -> & _ & Hc)|(mid & d & post & old & _ & -> & _ & _ & _ & Hnot)].
  - split; split; try done; eauto. by intros [e [=]].
  - split; split; try done; eauto. by intros [out [=]].
Qed.

(** X6: when [main] raises, the exception is the conflict error for a
    define of the dependencies and a different definition of the same
    name that comes before it in the dependencies; no other exception
    comes out of the registry. *)
Theorem main_raises_only_conflicts (info_data : list dep_info) (a : args)
    (e : exn) :
  main_defines info_data a = Raise e →
  ∃ mid d post old,
    concat (defines <$> info_data) = mid ++ d :: post
    ∧ old ∈ mid
    ∧ _get_name old = _get_name d
    ∧ old ≠ d
    ∧ e = RuntimeError (conflict_message old d).
Proof.
  rewrite main_defines_run.
  destruct (merge_dependencies_cases info_data)
    as [(self & -> & _)|(mid & d & post & old & Hds & -> & Hold & Hname & Hne & _)];
    [done|].
  intros [= <-]. by exists mid, d, post, old.
Qed.

Lemma main_raises_only_conflicts_witness :
  ∃ mid d post old,
    ["X=1"; "Y"; "X=2"; "Z"] = mid ++ d :: post
    ∧ old ∈ mid
    ∧ _get_name old = _get_name d
    ∧ old ≠ d
    ∧ RuntimeError (conflict_message "X=1" "X=2")
      = RuntimeError (conflict_message old d).
Proof.
  apply (main_raises_only_conflicts
           [ {| include_paths := []; defines := ["X=1"; "Y"] |};
             {| include_paths := []; defines := ["X=2"; "Z"] |} ]
           {| define := ["X=3"]; undefine := ["X"] |}).
  by vm_compute.
Defined.

(** The values of a registry that stores [ds]: [ds] without its
    repetitions. *)
Lemma stores_values (ds : list string) (self : MacroDefinitions) :
  stores ds self → (map_to_list (_dict self)).*2 ≡ₚ remove_dups ds.
Proof.
  intros Hst. apply NoDup_Permutation.
  - eapply NoDup_fmap_1, wf_names_NoDup, stores_wf, Hst.
  - apply NoDup_remove_dups.
  - intros d. rewrite elem_of_values, elem_of_remove_dups. split.
    + intros (name & Hget). by apply Hst in Hget as [? _].
    + intros Hd. exists (_get_name d). by apply Hst.
Qed.

(** X7: without user options, and when the defines of the dependencies
    agree, the list [main] gets is the sorted list of these defines, each
    taken once. *)
Theorem main_defines_of_dependencies (info_data : list dep_info) :
  consistent (concat (defines <$> info_data)) →
  main_defines info_data {| define := []; undefine := [] |}
  = Ok (PyStr.sort (remove_dups (concat (defines <$> info_data)))).
Proof.
  intros Hc. rewrite main_defines_run.
  destruct (merge_dependencies_cases info_data)
    as [(self & -> & Hst & _)|(? & ? & ? & ? & _ & _ & _ & _ & _ & Hnot)];
    [|done].
  cbn [define undefine foldl]. f_equal.
  apply sort_order_irrelevant. by apply stores_values.
Qed.

Lemma main_defines_of_dependencies_witness :
  main_defines
    [ {| include_paths := []; defines := ["X=1"; "DEBUG"] |};
      {| include_paths := []; defines := ["A"; "X=1"] |} ]
    {| define := []; undefine := [] |}
  = Ok ["A"; "DEBUG"; "X=1"].
Proof.
  apply (main_defines_of_dependencies
           [ {| include_paths := []; defines := ["X=1"; "DEBUG"] |};
             {| include_paths := []; defines := ["A"; "X=1"] |} ]).
  intros d1 d2 H1 H2. cbn in H1, H2.
  repeat (apply elem_of_cons in H1 as [->|H1]);
    [| | | |by apply elem_of_nil in H1];
    repeat (apply elem_of_cons in H2 as [->|H2]);
    try (by apply elem_of_nil in H2); by vm_compute.
Defined.

(** X8: the order in which the dependencies bring their defines does not
    show: two runs whose dependencies bring the same defines, in any
    order, both raise or both get the same list. *)
Theorem dependency_order_irrelevant (info1 info2 : list dep_info) (a : args) :
  concat (defines <$> info1) ≡ₚ concat (defines <$> info2) →
  match main_defines info1 a, main_defines info2 a with
  | Ok out1, Ok out2 => out1 = out2
  | Raise _, Raise _ => True
  | _, _ => False
  end.
Proof.
  intros Hp. rewrite !main_defines_run.
  assert (∀ d, d ∈ concat (defines <$> info1) ↔ d ∈ concat (defines <$> info2))
    as Hin by (intros d; by rewrite Hp).
  destruct (merge_dependencies_cases info1)
    as [(self1 & -> & Hst1 & Hc1)|(? & ? & ? & ? & _ & -> & _ & _ & _ & Hnot1)];
    destruct (merge_dependencies_cases info2)
    as [(self2 & -> & Hst2 & Hc2)|(? & ? & ? & ? & _ & -> & _ & _ & _ & Hnot2)];
    try done.
  - by rewrite (stores_unique _ _ _ _ Hin Hst1 Hst2).
  - apply Hnot2. intros d1 d2 ?%Hin ?%Hin. by apply Hc1.
  - apply Hnot1. intros d1 d2 ?%Hin ?%Hin. by apply Hc2.
Qed.

Lemma dependency_order_irrelevant_witness :
  match
    main_defines
      [ {| include_paths := []; defines := ["X=1"; "DEBUG"] |};
        {| include_paths := []; defines := ["A"] |} ]
      {| define := ["B"]; undefine := ["DEBUG"] |},
    main_defines
      [ {| include_paths := []; defines := ["A"; "DEBUG"] |};
        {| include_paths := []; defines := ["X=1"] |} ]
      {| define := ["B"]; undefine := ["DEBUG"] |}
  with
  | Ok out1, Ok out2 => out1 = out2
  | Raise _, Raise _ => True
  | _, _ => False
  end.
Proof.
  apply (dependency_order_irrelevant
           [ {| include_paths := []; defines := ["X=1"; "DEBUG"] |};
             {| include_paths := []; defines := ["A"] |} ]
           [ {| include_paths := []; defines := ["A"; "DEBUG"] |};
             {| include_paths := []; defines := ["X=1"] |} ]).
  cbn. etrans; [apply perm_swap|]. etrans; [apply perm_skip, perm_swap|].
  apply perm_swap.
Defined.

(** ** What the user's options do to the list *)

Lemma lookup_foldl_delete_full (l : list string) (m : gmap string string)
    (name : string) :
  foldl (λ m name, delete name m) m l !! name
  = if decide (name ∈ l) then None else m !! name.
Proof.
  case_decide as Hin; [by apply lookup_foldl_delete|].
  revert m. induction l as [|x l IH]; intros m; [done|].
  apply not_elem_of_cons in Hin as [Hne Hin].
  cbn [foldl]. rewrite IH by done. by apply lookup_delete_ne.
Qed.

(** X9: when the defines of the dependencies agree, [main] gets a list in
    ascending order whose definitions have pairwise distinct names, and a
    definition is in it exactly when its name is not undefined and either
    it is the last [--define] of its name, or there is no [--define] of
    its name and a dependency brings it.  So [--undefine] is stronger than
    [--define], which is stronger than the dependencies. *)
Theorem main_defines_precedence (info_data : list dep_info) (a : args) :
  consistent (concat (defines <$> info_data)) →
  ∃ out,
    main_defines info_data a = Ok out
    ∧ Sorted String.le out
    ∧ NoDup (_get_name <$> out)
    ∧ ∀ d, d ∈ out
           ↔ (_get_name d ∉ undefine a)
             ∧ (last_definition (_get_name d) (define a) = Some d
                ∨ (last_definition (_get_name d) (define a) = None
                   ∧ d ∈ concat (defines <$> info_data))).
Proof.
  intros Hc. rewrite main_defines_run.
  destruct (merge_dependencies_cases info_data)
    as [(self & Hrun & Hst & _)|(? & ? & ? & ? & _ & _ & _ & _ & _ & Hnot)];
    [|done].
  rewrite Hrun. eexists. split; [done|].
  pose proof (apply_user_wf a self _ (stores_wf _ _ Hst) (apply_user_run a self))
    as Hwf.
  split; [apply sort_Sorted|].
  split; [rewrite sort_Permutation; by apply wf_names_NoDup in Hwf|].
  intros d. rewrite sort_Permutation, elem_of_values.
  transitivity
    (foldl (λ m name, delete name m)
       (foldl (λ m d, <[_get_name d := d]> m) (_dict self) (define a))
       (undefine a) !! _get_name d = Some d).
  { split; [|by eauto]. intros (name & Hget).
    pose proof (Hwf _ _ Hget) as Hname. cbn in Hname. by subst name. }
  rewrite lookup_foldl_delete_full, lookup_foldl_insert.
  case_decide as Hun; [split; [done | by intros [? _]]|].
  destruct (last_definition (_get_name d) (define a)) as [d'|].
  - split; [by auto|]. by intros [_ [?|[? _]]].
  - rewrite (Hst (_get_name d) d). split; [intros [? _]; by auto|].
    by intros [_ [?|[_ ?]]].
Qed.

Lemma main_defines_precedence_witness :
  ∃ out,
    main_defines
      [ {| include_paths := []; defines := ["X=1"; "DEBUG"] |} ]
      {| define := ["X=2"; "X=3"]; undefine := ["DEBUG"] |} = Ok out
    ∧ ("X=3" ∈ out) ∧ ("X=2" ∉ out) ∧ ("X=1" ∉ out) ∧ ("DEBUG" ∉ out).
Proof.
  destruct (main_defines_precedence
              [ {| include_paths := []; defines := ["X=1"; "DEBUG"] |} ]
              {| define := ["X=2"; "X=3"]; undefine := ["DEBUG"] |})
    as (out & Hout & _ & _ & Hin).
  - intros d1 d2 H1 H2. cbn in H1, H2.
    repeat (apply elem_of_cons in H1 as [->|H1]);
      [| |by apply elem_of_nil in H1];
      repeat (apply elem_of_cons in H2 as [->|H2]);
      try (by apply elem_of_nil in H2); by vm_compute.
  - exists out. split; [exact Hout|].
    split; [apply Hin; split; [compute_done | left; by vm_compute]|].
    split; [|split]; intros [Hun Hlast]%Hin.
    + destruct Hlast as [Hl|[Hl _]]; by vm_compute in Hl.
    + destruct Hlast as [Hl|[Hl _]]; by vm_compute in Hl.
    + apply Hun. compute_done.
Defined.




(** X11: only the set of undefined names counts: two runs that differ in
    the order or the repetition of their [--undefine] names get the same
    result. *)
Theorem undefine_order_irrelevant (info_data : list dep_info) (a a' : args) :
  define a = define a' →
  (∀ name, name ∈ undefine a ↔ name ∈ undefine a') →
  main_defines info_data a = main_defines info_data a'.
Proof.
  intros Hdef Hun. rewrite !main_defines_run, Hdef.
  destruct (merge_dependencies info_data __init__) as [[[] self]|e]; [|done].
  set (m := foldl (λ m d, <[_get_name d := d]> m) (_dict self) (define a')).
  assert (foldl (λ m name, delete name m) m (undefine a)
          = foldl (λ m name, delete name m) m (undefine a')) as ->; [|done].
  apply map_eq. intros name.
  rewrite !lookup_foldl_delete_full.
  destruct (decide (name ∈ undefine a)) as [Hi|Hi],
    (decide (name ∈ undefine a')) as [Hi'|Hi']; try done.
  - by apply Hun in Hi.
  - by apply Hun in Hi'.
Qed.

Lemma undefine_order_irrelevant_witness :
  main_defines [ {| include_paths := []; defines := ["X=1"; "Y"; "Z"] |} ]
    {| define := ["B"]; undefine := ["X"; "Y"; "X"] |}
  = main_defines [ {| include_paths := []; defines := ["X=1"; "Y"; "Z"] |} ]
      {| define := ["B"]; undefine := ["Y"; "X"] |}.
Proof.
  apply (undefine_order_irrelevant
           [ {| include_paths := []; defines := ["X=1"; "Y"; "Z"] |} ]
           {| define := ["B"]; undefine := ["X"; "Y"; "X"] |}
           {| define := ["B"]; undefine := ["Y"; "X"] |}).
  - reflexivity.
  - intros name. cbn [undefine]. rewrite !elem_of_cons, !elem_of_nil. tauto.
Defined.

(** ** The include paths *)

Section EnvironmentFacts.

Variable abspath : string → string.
Variable which : string → string → option string.

Lemma dependencies_loop_run (info_data : list dep_info)
    (includes : list string) (self : MacroDefinitions) :
  dependencies_loop info_data includes self
  = match merge_dependencies info_data self with
    | Ok (_, self') =>
        Ok (includes ++ concat (include_paths <$> info_data), self')
    | Raise e => Raise e
    end.
Proof.
  revert includes self.
  induction info_data as [|dep info_data IH]; intros includes self.
  - cbn. by rewrite app_nil_r.
  - cbn [dependencies_loop]. unfold merge_dependencies.
    rewrite bind_run, for_each_cons.
    destruct (for_each (defines dep) merge_define self) as [[[] self1]|e];
      [|done].
    rewrite IH. unfold merge_dependencies.
    destruct (for_each info_data _ self1) as [[[] self2]|e]; [|done].
    cbn [fmap list_fmap concat]. by rewrite app_assoc.
Qed.

(** X12: the include paths [main] gets are the absolute paths of the
    [--include] options, in the order given, followed by the include paths
    of the dependencies, in the order of the dependencies, repetitions
    kept; the defines it gets along with them are those of
    [main_defines], and a conflict among the defines leaves it with the
    conflict error and no include paths. *)
Theorem main_includes_in_order (include : list string)
    (info_data : list dep_info) (a : args) :
  main_includes_defines abspath include info_data a
  = match main_defines info_data a with
    | Ok defines =>
        Ok ((abspath <$> include) ++ concat (include_paths <$> info_data),
            defines)
    | Raise e => Raise e
    end.
Proof.
  unfold main_includes_defines. rewrite main_defines_run, bind_run.
  rewrite dependencies_loop_run.
  destruct (merge_dependencies info_data __init__) as [[[] self]|e]; [|done].
  by rewrite bind_run, apply_user_run, bind_run, as_list_run.
Qed.

(** ** The search for clang-format *)

Lemma search_bin_paths_app (paths1 paths2 : list string) :
  search_bin_paths which (paths1 ++ paths2)
  = match search_bin_paths which paths1 with
    | Some clang_format => Some clang_format
    | None => search_bin_paths which paths2
    end.
Proof.
  induction paths1 as [|path paths1 IH]; [done|].
  cbn [app search_bin_paths]. by destruct (which "clang-format" path).
Qed.

Lemma search_dependencies_flat (info_data : list bin_info) :
  search_dependencies which info_data
  = search_bin_paths which (concat (bin_paths <$> info_data)).
Proof.
  induction info_data as [|dep info_data IH]; [done|].
  cbn [search_dependencies fmap list_fmap concat].
  by rewrite search_bin_paths_app, IH.
Qed.

Lemma search_bin_paths_Some (paths : list string) (clang_format : string) :
  search_bin_paths which paths = Some clang_format
  ↔ ∃ pre path post,
      paths = pre ++ path :: post
      ∧ Forall (λ p, which "clang-format" p = None) pre
      ∧ which "clang-format" path = Some clang_format.
Proof.
  induction paths as [|p paths IH].
  - split; [done|]. by intros ([|??] & ? & ? & ? & _).
  - cbn [search_bin_paths].
    destruct (which "clang-format" p) as [found|] eqn:Hp.
    + split.
      * intros [= ->]. by exists [], p, paths.
      * intros ([|p' pre] & path & post & Heq & Hall & Hpath).
        -- injection Heq as <- _. congruence.
        -- injection Heq as <- _. apply Forall_cons in Hall as [Hnone _].
           congruence.
    + rewrite IH. split.
      * intros (pre & path & post & -> & Hall & Hpath).
        exists (p :: pre), path, post. split; [done|].
        split; [by constructor | done].
      * intros ([|p' pre] & path & post & Heq & Hall & Hpath).
        -- injection Heq as <- _. congruence.
        -- injection Heq as <- ->. apply Forall_cons in Hall as [_ Hall].
           by exists pre, path, post.
Qed.

Lemma search_bin_paths_None (paths : list string) :
  search_bin_paths which paths = None
  ↔ Forall (λ p, which "clang-format" p = None) paths.
Proof.
  induction paths as [|p paths IH]; [by split|].
  cbn [search_bin_paths]. rewrite Forall_cons.
  destruct (which "clang-format" p) as [found|]; [|by rewrite IH; tauto].
  split; [done|]. by intros [[=] _].
Qed.

(** X13: [_install_clang_format] goes through the [bin_paths] of the
    dependencies in order, path by path, and returns what [which] finds on
    the first path that has clang-format; it raises, with its
    did-not-find message and no other exception, exactly when no path has
    it, in particular when there are no dependencies or no paths. *)
Theorem install_clang_format_first_hit (info_data : list bin_info)
    (clang_format : string) (e : exn) :
  (_install_clang_format which info_data = Ok clang_format
   ↔ ∃ pre path post,
       concat (bin_paths <$> info_data) = pre ++ path :: post
       ∧ Forall (λ p, which "clang-format" p = None) pre
       ∧ which "clang-format" path = Some clang_format)
  ∧ (_install_clang_format which info_data = Raise e
     ↔ Forall (λ p, which "clang-format" p = None)
         (concat (bin_paths <$> info_data))
       ∧ e = RuntimeError "Did not find clang-format after installing it.")
  ∧ _install_clang_format which []
    = Raise (RuntimeError "Did not find clang-format after installing it.").
Proof.
  unfold _install_clang_format. rewrite search_dependencies_flat.
  rewrite <- search_bin_paths_Some, <- search_bin_paths_None.
  destruct (search_bin_paths which (concat (bin_paths <$> info_data)))
    as [found|].
  - split; [|split; [|done]].
    + split; [by intros [= ->] | by intros [= ->]].
    + split; [done | by intros [[=] _]].
  - split; [|split; [|done]].
    + split; done.
    + split; [by intros [= <-] | by intros [_ ->]].
Qed.

End EnvironmentFacts.

(** ** How [add] and [remove] change the list read back *)

Lemma values_delete (m : gmap string string) (name old : string) :
  m !! name = Some old →
  old :: (map_to_list (delete name m)).*2 ≡ₚ (map_to_list m).*2.
Proof.
  intros Hget. rewrite <- (map_to_list_delete m name old Hget). done.
Qed.

Lemma values_insert (m : gmap string string) (name d : string) :
  (map_to_list (<[name := d]> m)).*2
  ≡ₚ d :: (map_to_list (delete name m)).*2.
Proof.
  rewrite <- insert_delete_eq.
  by rewrite map_to_list_insert by apply lookup_delete_eq.
Qed.

(** X14: [add] changes the list [as_list] reads in one place: on a fresh
    name the definition joins the list, and otherwise it takes the place
    of the definition that was stored under its name. *)
Theorem as_list_after_add (definition : string) (self : MacroDefinitions) :
  ∃ l l' self',
    as_list self = Ok (l, self)
    ∧ (add definition;; as_list) self = Ok (l', self')
    ∧ Sorted String.le l'
    ∧ match _dict self !! _get_name definition with
      | None => l' ≡ₚ definition :: l
      | Some old => old :: l' ≡ₚ definition :: l
      end.
Proof.
  do 3 eexists. split; [apply as_list_run|].
  rewrite bind_run, add_run, as_list_run. cbn [_dict].
  split; [done|]. split; [apply sort_Sorted|].
  destruct (_dict self !! _get_name definition) as [old|] eqn:Hget;
    rewrite !sort_Permutation, values_insert.
  - rewrite <- (values_delete _ _ _ Hget). apply perm_swap.
  - by rewrite delete_id.
Qed.

(** X15: [remove] changes the list [as_list] reads in one place: the
    definition stored under the name leaves the list, and when there is
    none the list is the same. *)
Theorem as_list_after_remove (name : string) (self : MacroDefinitions) :
  ∃ l l' self',
    as_list self = Ok (l, self)
    ∧ (remove name;; as_list) self = Ok (l', self')
    ∧ Sorted String.le l'
    ∧ match _dict self !! name with
      | None => l' = l
      | Some old => old :: l' ≡ₚ l
      end.
Proof.
  do 3 eexists. split; [apply as_list_run|].
  rewrite bind_run, remove_run, as_list_run. cbn [_dict].
  split; [done|]. split; [apply sort_Sorted|].
  destruct (_dict self !! name) as [old|] eqn:Hget.
  - rewrite !sort_Permutation. by apply values_delete.
  - by rewrite delete_id.
Qed.
